(** * IpoptMPC: the roadmap reader of [Ipopt_MPC.h]

    The header [src/mpc_to_line/src/Ipopt_MPC.h] declares the class
    [IpoptMPC].  Two member functions have bodies there:
    [readRoadmapFromCSV] and [parseRoadMapLine].  They are embedded below
    together with the library calls they make ([std::getline] on a string
    stream, [std::stof], the [float] to [double] conversion of
    [push_back]).  The TNLP callbacks and [Solve] are only declared in the
    header, and nothing in it fills the centerline vectors; they are not
    modelled. *)

From Stdlib Require Import Ascii String List ZArith Lia Bool SpecFloat.
From Equations Require Import Equations.
Import ListNotations.
Open Scope string_scope.
Open Scope list_scope.
Open Scope Z_scope.

(** ** Characters, as <cctype> classifies them in the "C" locale *)

Module Ctype.

Definition code (c : ascii) : Z := Z.of_N (N_of_ascii c).

Definition between (lo hi : Z) (c : ascii) : bool :=
  (lo <=? code c) && (code c <=? hi).

(* ' ', and the control characters \t \n \v \f \r *)
Definition isspace (c : ascii) : bool :=
  (code c =? 32) || between 9 13 c.

Definition isdigit (c : ascii) : bool := between 48 57 c.

Definition isupper (c : ascii) : bool := between 65 90 c.

Definition islower (c : ascii) : bool := between 97 122 c.

Definition isalpha (c : ascii) : bool := isupper c || islower c.

Definition tolower (c : ascii) : ascii :=
  if isupper c then ascii_of_N (N_of_ascii c + 32) else c.

Definition isxdigit (c : ascii) : bool :=
  isdigit c || between 97 102 (tolower c).

Definition digit_val (c : ascii) : Z := code c - 48.

Definition xdigit_val (c : ascii) : Z :=
  if isdigit c then code c - 48 else code (tolower c) - 87.

End Ctype.

(** ** Exceptions and the state-and-exception monad

    A member function runs on the object and either returns or throws; what
    it wrote to the object before throwing stays written. *)

Inductive exn : Type :=
| invalid_argument
| out_of_range.

Definition M (S A : Type) : Type := S -> (exn + A) * S.

Definition ret {S A} (a : A) : M S A := fun st => (inr a, st).

Definition throw {S A} (e : exn) : M S A := fun st => (inl e, st).

Definition bind {S A B} (c : M S A) (k : A -> M S B) : M S B :=
  fun st =>
    match c st with
    | (inl e, st') => (inl e, st')
    | (inr a, st') => k a st'
    end.

Declare Scope mpc_scope.
Delimit Scope mpc_scope with mpc.
Notation "x <- c ;; k" := (bind c (fun x => k))
  (at level 61, c at next level, right associativity) : mpc_scope.

(** ** String streams and [std::getline]

    An [std::istringstream] is modelled by the characters not yet read.
    [getline stream delim] extracts characters up to the delimiter, which
    it removes from the stream without storing it.  When it extracts
    nothing at all (the stream is at its end) it sets failbit and the
    stream tests false: [None]. *)

Fixpoint read_until (delim : ascii) (stream : string) : string * string :=
  match stream with
  | EmptyString => (EmptyString, EmptyString)
  | String c rest =>
      if Ascii.eqb c delim then (EmptyString, rest)
      else let (tok, rest') := read_until delim rest in (String c tok, rest')
  end.

Definition getline (stream : string) (delim : ascii) : option (string * string) :=
  match stream with
  | EmptyString => None
  | String _ _ => Some (read_until delim stream)
  end.

Definition inspect {A} (a : A) : {b : A | a = b} := exist _ a eq_refl.

(** [while (std::getline(stream, tok, delim)) body(tok);] *)
Equations? while_getline {S : Type} (delim : ascii) (body : string -> M S unit)
  (stream : string) (st : S) : (exn + unit) * S by wf (String.length stream) lt :=
  while_getline delim body stream st with inspect (getline stream delim) := {
    | exist _ None _ => (inr tt, st)
    | exist _ (Some (tok, rest)) Hget with body tok st := {
        | (inl e, st') => (inl e, st')
        | (inr _, st') => while_getline delim body rest st' } }.
Proof.
  destruct stream as [|c s]; [discriminate|].
  cbn in Hget. injection Hget as Hget.
  assert (Hlen : forall d t tk rs, read_until d t = (tk, rs) ->
                  (String.length rs <= String.length t)%nat).
  { intros d t; induction t as [|a t IH]; intros tk rs; cbn.
    - intros [= <- <-]. cbn. lia.
    - destruct (Ascii.eqb a d).
      + intros [= <- <-]. lia.
      + destruct (read_until d t) as [tk' rs'] eqn:E.
        intros [= <- <-]. specialize (IH _ _ eq_refl). lia. }
  cbn in Hget. destruct (Ascii.eqb c delim).
  - injection Hget as <- <-. cbn. lia.
  - destruct (read_until delim s) as [tk' rs'] eqn:E.
    injection Hget as <- <-. apply Hlen in E. cbn. lia.
Qed.

(** ** IEEE 754 formats

    [float] is binary32 and [double] is binary64.  Values are the
    [spec_float]s of the standard library, rounded to nearest, ties to
    even, by its [binary_round_aux]. *)

Module IEEE.

Definition prec32 : Z := 24.
Definition emax32 : Z := 128.
Definition prec64 : Z := 53.
Definition emax64 : Z := 1024.

Definition is_float (x : spec_float) : bool := valid_binary prec32 emax32 x.
Definition is_double (x : spec_float) : bool := valid_binary prec64 emax64 x.

Definition is_infinity (x : spec_float) : bool :=
  match x with S754_infinity _ => true | _ => false end.

(** The implicit conversion [float -> double] of [wp.push_back(std::stof(..))]:
    every float is a double, renormalised to 53 digits. *)
Definition double_of_float (x : spec_float) : spec_float :=
  match x with
  | S754_finite s m e => binary_round prec64 emax64 s m e
  | _ => x
  end.

(** [(float) d], rounding to nearest. *)
Definition float_of_double (x : spec_float) : spec_float :=
  match x with
  | S754_finite s m e => binary_round prec32 emax32 s m e
  | _ => x
  end.

(** A double that a 32-bit float holds exactly: narrowing and widening
    gives it back. *)
Definition float_representable (d : spec_float) : Prop :=
  double_of_float (float_of_double d) = d.

(** The float nearest to [(-1)^s * m * 2^e], for [m > 0]. *)
Definition round_binary (s : bool) (m : Z) (e : Z) : spec_float :=
  binary_normalize prec32 emax32 (cond_Zopp s m) e s.

(** The float nearest to [(-1)^s * m * 10^e], for [m > 0]. *)
Definition round_decimal (s : bool) (m : Z) (e : Z) : spec_float :=
  if 0 <=? e then round_binary s (m * 10 ^ e) 0
  else SFdiv prec32 emax32 (S754_finite s (Z.to_pos m) 0)
                           (S754_finite false (Z.to_pos (10 ^ (- e))) 0).

(** [0 < m * 10^e < FLT_MIN] and [0 < m * 2^e < FLT_MIN], where
    [FLT_MIN = 2^-126] is the least normal float. *)
Definition tiny_decimal (m e : Z) : bool :=
  (0 <? m) && (e <? 0) && (m * 2 ^ 126 <? 10 ^ (- e)).

Definition tiny_binary (m e : Z) : bool :=
  (0 <? m) && (m <? 2 ^ (- 126 - e)).

End IEEE.

(** ** [strtof] and [std::stof]

    [std::stof(str)] calls [strtof(str.c_str(), &endptr)].  It throws
    [std::invalid_argument] when no conversion was performed
    ([endptr == str.c_str()]) and [std::out_of_range] when [strtof] set
    [errno] to [ERANGE]; otherwise it returns the float.  [stof] is called
    here without an index argument, so whatever follows the number in the
    string is ignored.

    The characters are read as in the "C" locale and the value is rounded
    to nearest.  Of what C leaves to the implementation one thing bears on
    the outcome: whether a result that underflows sets [ERANGE].  The class
    [Libc] carries that choice, as a function of the string converted. *)

Class Libc : Type := { underflow_erange : string -> bool }.

Module Strtof.
Import Ctype IEEE.

Record conversion : Type := { value : spec_float; endptr : string; erange : bool }.

Fixpoint skip_space (s : string) : string :=
  match s with
  | String c s' => if isspace c then skip_space s' else s
  | EmptyString => s
  end.

Definition scan_sign (s : string) : bool * string :=
  match s with
  | String "-" s' => (true, s')
  | String "+" s' => (false, s')
  | _ => (false, s)
  end.

(** Reads digits of the given base: the number read so far, how many
    digits were read, and what is left. *)
Fixpoint scan_digits (isd : ascii -> bool) (val : ascii -> Z) (base : Z)
  (s : string) (acc cnt : Z) : Z * Z * string :=
  match s with
  | String c s' =>
      if isd c then scan_digits isd val base s' (base * acc + val c) (cnt + 1)
      else (acc, cnt, s)
  | EmptyString => (acc, cnt, s)
  end.

(** A nonempty sequence of digits optionally containing a radix character:
    the digits as one integer, and the number of digits after the point. *)
Definition scan_mantissa (isd : ascii -> bool) (val : ascii -> Z) (base : Z)
  (s : string) : option (Z * Z * string) :=
  let '(mi, ni, r1) := scan_digits isd val base s 0 0 in
  match r1 with
  | String "." r1' =>
      let '(m, nf, r2) := scan_digits isd val base r1' mi 0 in
      if 0 <? ni + nf then Some (m, nf, r2) else None
  | _ => if 0 <? ni then Some (mi, 0, r1) else None
  end.

(** An optional exponent part: the marker ([e] or [p], either case), an
    optional sign, a nonempty sequence of decimal digits.  When the digits
    are missing the marker is not part of the number. *)
Definition scan_exponent (marker : ascii) (s : string) : Z * string :=
  match s with
  | String c s' =>
      if Ascii.eqb (tolower c) marker then
        let (neg, r) := scan_sign s' in
        let '(ev, ne, r') := scan_digits isdigit digit_val 10 r 0 0 in
        if 0 <? ne then (if neg then - ev else ev, r') else (0, s)
      else (0, s)
  | EmptyString => (0, s)
  end.

(** [skip_word w s]: what follows [w] in [s], ignoring case ([w] is in
    lower case). *)
Fixpoint skip_word (w s : string) : option string :=
  match w, s with
  | EmptyString, _ => Some s
  | String a w', String c s' =>
      if Ascii.eqb (tolower c) a then skip_word w' s' else None
  | String _ _, EmptyString => None
  end.

(** [NAN(n-char-sequence)]: digits, letters and underscores in brackets. *)
Fixpoint skip_nchars (s : string) : option string :=
  match s with
  | String c s' =>
      if Ascii.eqb c ")" then Some s'
      else if isdigit c || isalpha c || Ascii.eqb c "_" then skip_nchars s'
      else None
  | EmptyString => None
  end.

Definition skip_nan_payload (s : string) : string :=
  match s with
  | String "(" s' => match skip_nchars s' with Some r => r | None => s end
  | _ => s
  end.

Section Conversions.
Context {libc : Libc}.

(** The result for a finite number: overflow gives [HUGE_VALF] and
    [ERANGE]; underflow gives the rounded value, and [ERANGE] if the
    implementation says so. *)
Definition finish (nptr : string) (neg : bool) (m : Z)
  (v : spec_float) (tiny : bool) (rest : string) : conversion :=
  let v := if m =? 0 then S754_zero neg else v in
  {| value := v;
     endptr := rest;
     erange := is_infinity v || (tiny && underflow_erange nptr) |}.

Definition scan_hex (nptr : string) (neg : bool) (s : string) : option conversion :=
  match s with
  | String z (String x s') =>
      if Ascii.eqb z "0" && Ascii.eqb (tolower x) "x" then
        match scan_mantissa isxdigit xdigit_val 16 s' with
        | Some (m, nf, r) =>
            let (ep, r') := scan_exponent "p" r in
            let e := ep - 4 * nf in
            Some (finish nptr neg m (round_binary neg m e) (tiny_binary m e) r')
        | None => None
        end
      else None
  | _ => None
  end.

Definition scan_decimal (nptr : string) (neg : bool) (s : string) : option conversion :=
  match scan_mantissa isdigit digit_val 10 s with
  | Some (m, nf, r) =>
      let (ex, r') := scan_exponent "e" r in
      let e := ex - nf in
      Some (finish nptr neg m (round_decimal neg m e) (tiny_decimal m e) r')
  | None => None
  end.

(** [strtof nptr]: [None] when no conversion is performed. *)
Definition strtof (nptr : string) : option conversion :=
  let (neg, s) := scan_sign (skip_space nptr) in
  match skip_word "inf" s with
  | Some r =>
      let r' := match skip_word "inity" r with Some r' => r' | None => r end in
      Some {| value := S754_infinity neg; endptr := r'; erange := false |}
  | None =>
      match skip_word "nan" s with
      | Some r =>
          Some {| value := S754_nan; endptr := skip_nan_payload r; erange := false |}
      | None =>
          match scan_hex nptr neg s with
          | Some c => Some c
          | None => scan_decimal nptr neg s
          end
      end
  end.

(** [str.c_str()] as a C string: it ends at the first NUL. *)
Fixpoint c_str (str : string) : string :=
  match str with
  | String c s => if Ascii.eqb c "000" then EmptyString else String c (c_str s)
  | EmptyString => EmptyString
  end.

Definition stof (str : string) : exn + spec_float :=
  match strtof (c_str str) with
  | None => inl invalid_argument
  | Some c => if erange c then inl out_of_range else inr (value c)
  end.

End Conversions.
End Strtof.

(** ** The class [IpoptMPC]

    The data members of the class.  The header declares [waypoints_],
    [cl_x_], [cl_y_] and [cl_phi_] twice over; the object has one of
    each. *)

Definition double : Type := spec_float.

Record IpoptMPC : Type := {
  x0_ : list double;
  map_sz_ : Z;
  waypoints_ : list (list double);
  cl_x_ : list double;
  cl_y_ : list double;
  cl_phi_ : list double
}.

Definition set_waypoints (w : list (list double)) (self : IpoptMPC) : IpoptMPC :=
  {| x0_ := x0_ self; map_sz_ := map_sz_ self; waypoints_ := w;
     cl_x_ := cl_x_ self; cl_y_ := cl_y_ self; cl_phi_ := cl_phi_ self |}.

Definition push_back {A} (x : A) : M (list A) unit :=
  fun v => (inr tt, v ++ [x]).

Section Roadmap.
Context {libc : Libc}.
Local Open Scope mpc_scope.

Definition stof {S} (str : string) : M S spec_float :=
  match Strtof.stof str with
  | inl e => throw e
  | inr v => ret v
  end.

(** The body of the loop in [parseRoadMapLine]:
    [wp.push_back(std::stof(number))]. *)
Definition read_number (number : string) : M (list double) unit :=
  v <- stof number ;; push_back (IEEE.double_of_float v).

(** [parseRoadMapLine]: the local [wp] is lost when [stof] throws, and
    [waypoints_.push_back(wp)] is not reached. *)
Definition parseRoadMapLine (line : string) : M IpoptMPC unit :=
  fun self =>
    match while_getline "," read_number line [] with
    | (inl e, _) => (inl e, self)
    | (inr _, wp) => (inr tt, set_waypoints (waypoints_ self ++ [wp]) self)
    end.

(** [readRoadmapFromCSV]: the argument itself is the text of the stream. *)
Definition readRoadmapFromCSV (roadmap_file_name : string) : M IpoptMPC unit :=
  while_getline "010" parseRoadMapLine roadmap_file_name.

End Roadmap.

(** ** Records and fields

    The roadmap format read on its own terms: the text split at the
    delimiter, a delimiter at the very end opening no further piece.  The
    loops of the reader are compared with these below. *)

Fixpoint split (delim : ascii) (s : string) : list string :=
  match s with
  | EmptyString => []
  | String c rest =>
      if Ascii.eqb c delim then EmptyString :: split delim rest
      else match split delim rest with
           | [] => [String c EmptyString]
           | tok :: toks => String c tok :: toks
           end
  end.

Definition records (text : string) : list string := split "010" text.

Definition fields (record : string) : list string := split "," record.

(** Running a loop body over a list of tokens, stopping at the first
    exception. *)
Fixpoint for_each {S : Type} (body : string -> M S unit) (toks : list string) : M S unit :=
  match toks with
  | [] => ret tt
  | t :: ts => bind (body t) (fun _ => for_each body ts)
  end.

Section Reading.
Context {libc : Libc}.

(** A field that is a number from its first character to its last. *)
Definition numeric (field : string) : bool :=
  match Strtof.strtof field with
  | Some c => String.eqb (Strtof.endptr c) EmptyString
  | None => false
  end.

(** A field that [std::stof] converts. *)
Definition converts (field : string) : Prop :=
  exists v, Strtof.stof field = inr v.

Definition convertsb (field : string) : bool :=
  match Strtof.stof field with
  | inr _ => true
  | inl _ => false
  end.

(** The double stored for a field that converts. *)
Definition number (field : string) : double :=
  match Strtof.stof field with
  | inr v => IEEE.double_of_float v
  | inl _ => S754_zero false
  end.

Fixpoint convert_fields (fs : list string) : exn + list double :=
  match fs with
  | [] => inr []
  | f :: fs' =>
      match Strtof.stof f with
      | inl e => inl e
      | inr v =>
          match convert_fields fs' with
          | inl e => inl e
          | inr vs => inr (IEEE.double_of_float v :: vs)
          end
      end
  end.

(** What a text adds to the waypoint sequence, and how reading it ends:
    the records before the first one that fails, one waypoint each. *)
Fixpoint ingest (recs : list string) : (exn + unit) * list (list double) :=
  match recs with
  | [] => (inr tt, [])
  | r :: rs =>
      match convert_fields (fields r) with
      | inl e => (inl e, [])
      | inr wp => let (o, ws) := ingest rs in (o, wp :: ws)
      end
  end.

End Reading.

(** A C library that reports every underflow, as glibc does for inexact
    ones, and one that reports none. *)
Definition libc_strict : Libc := {| underflow_erange := fun _ => true |}.
Definition libc_quiet : Libc := {| underflow_erange := fun _ => false |}.

Definition fresh : IpoptMPC :=
  {| x0_ := []; map_sz_ := 0; waypoints_ := [];
     cl_x_ := []; cl_y_ := []; cl_phi_ := [] |}.

Definition LF : ascii := "010"%char.

(** A text made of the given lines, a line feed between two of them. *)
Definition text_of (ls : list string) : string :=
  String.concat (String LF EmptyString) ls.


(** 1.0 as a float. *)
Definition d_float_one : spec_float := S754_finite false 8388608 (-23).

(** 1.0, 0.5 and 5.0 as doubles. *)
Definition d_one : double := S754_finite false 4503599627370496 (-52).
Definition d_half : double := S754_finite false 4503599627370496 (-53).
Definition d_five : double := S754_finite false 5629499534213120 (-50).

(** ** Words for the shape of a text *)

Infix "+++" := String.append (at level 60, right associativity).

(** [has_char d s]: the character [d] occurs in [s]. *)
Fixpoint has_char (d : ascii) (s : string) : bool :=
  match s with
  | EmptyString => false
  | String c rest => Ascii.eqb c d || has_char d rest
  end.

(** [line_complete d s]: [s] is empty or its last character is [d]; the
    stream then has no piece left open at its end. *)
Fixpoint line_complete (d : ascii) (s : string) : bool :=
  match s with
  | EmptyString => true
  | String c rest =>
      match rest with
      | EmptyString => Ascii.eqb c d
      | String _ _ => line_complete d rest
      end
  end.

(** [spelled w f]: after leading white space and an optional sign, the C
    string of the field [f] starts with the word [w], in either case. *)
Definition spelled (w f : string) : bool :=
  match Strtof.skip_word w (snd (Strtof.scan_sign (Strtof.skip_space (Strtof.c_str f)))) with
  | Some _ => true
  | None => false
  end.

Definition is_nan (x : spec_float) : bool :=
  match x with S754_nan => true | _ => false end.

Section Overflow.
Context {libc : Libc}.

(** [overflows f]: the field [f] holds a number too large for float, that
    is, [strtof] returns [HUGE_VALF] for it though it does not spell
    [inf]. *)
Definition overflows (f : string) : bool :=
  match Strtof.strtof (Strtof.c_str f) with
  | Some c => IEEE.is_infinity (Strtof.value c) && negb (spelled "inf" f)
  | None => false
  end.

End Overflow.

(** * Properties *)

(** ** The loop over a stream *)

Example getline_lines :
  getline (String "a" (String "010" (String "010" "b"))) "010"%char
  = Some ("a", String "010" "b").
Proof. reflexivity. Qed.

Lemma while_getline_step {S} delim (body : string -> M S unit) stream st :
  while_getline delim body stream st =
  match getline stream delim with
  | None => (inr tt, st)
  | Some (tok, rest) =>
      match body tok st with
      | (inl e, st') => (inl e, st')
      | (inr _, st') => while_getline delim body rest st'
      end
  end.
Proof.
  funelim (while_getline delim body stream st);
    match goal with H : getline _ _ = _ |- _ => rewrite H end;
    try match goal with H : body _ _ = _ |- _ => rewrite H end;
    reflexivity.
Qed.

Lemma getline_split delim stream tok rest :
  getline stream delim = Some (tok, rest) ->
  split delim stream = tok :: split delim rest
  /\ (String.length rest < String.length stream)%nat.
Proof.
  destruct stream as [|c s]; [discriminate|].
  unfold getline. intros [= H]. revert c tok rest H.
  induction s as [|c' s IH]; intros c tok rest; cbn.
  - destruct (Ascii.eqb c delim); intros [= <- <-]; cbn; split; (reflexivity || lia).
  - destruct (Ascii.eqb c delim).
    + intros [= <- <-]. split; [reflexivity | cbn; lia].
    + specialize (IH c'). cbn in IH.
      destruct (Ascii.eqb c' delim).
      * intros [= <- <-]. split; [reflexivity | cbn; lia].
      * destruct (read_until delim s) as [tk rs].
        intros [= <- <-]. destruct (IH _ _ eq_refl) as [-> Hl].
        split; [reflexivity | cbn in *; lia].
Qed.

Lemma getline_none stream delim :
  getline stream delim = None -> split delim stream = [].
Proof. destruct stream; [reflexivity | discriminate]. Qed.

(** The loop runs its body on the pieces of the stream, in order. *)
Lemma while_getline_for_each {S} delim (body : string -> M S unit) stream st :
  while_getline delim body stream st = for_each body (split delim stream) st.
Proof.
  remember (String.length stream) as len eqn:Hlen.
  revert stream st Hlen.
  induction len as [len IH] using lt_wf_ind. intros stream st ->.
  rewrite while_getline_step.
  destruct (getline stream delim) as [[tok rest]|] eqn:G.
  - destruct (getline_split _ _ _ _ G) as [-> Hlt].
    cbn. unfold bind. destruct (body tok st) as [[e|u] st']; [reflexivity|].
    apply (IH _ Hlt); reflexivity.
  - rewrite (getline_none _ _ G). reflexivity.
Qed.

(** ** The roadmap reader *)

Section ReaderFacts.
Context {libc : Libc}.

Lemma set_waypoints_nil self :
  set_waypoints (waypoints_ self ++ []) self = self.
Proof. destruct self. unfold set_waypoints. cbn. rewrite app_nil_r. reflexivity. Qed.

Lemma read_number_stof number wp :
  read_number number wp =
  match Strtof.stof number with
  | inl e => (inl e, wp)
  | inr v => (inr tt, wp ++ [IEEE.double_of_float v])
  end.
Proof.
  unfold read_number, bind, stof, push_back, throw, ret.
  destruct (Strtof.stof number); reflexivity.
Qed.

(** The loop of [parseRoadMapLine] fills [wp] with the numbers of the
    fields, or ends at the first field that [stof] refuses. *)
Lemma read_numbers fs : forall wp,
  match convert_fields fs with
  | inl e => exists wp', for_each read_number fs wp = (inl e, wp')
  | inr vs => for_each read_number fs wp = (inr tt, wp ++ vs)
  end.
Proof.
  induction fs as [|f fs IH]; intros wp; cbn.
  - unfold ret. rewrite app_nil_r. reflexivity.
  - unfold bind. rewrite read_number_stof.
    destruct (Strtof.stof f) as [e|v].
    + exists wp. reflexivity.
    + specialize (IH (wp ++ [IEEE.double_of_float v])).
      destruct (convert_fields fs) as [e|vs].
      * exact IH.
      * rewrite IH, <- app_assoc. reflexivity.
Qed.

Lemma parseRoadMapLine_fields line self :
  parseRoadMapLine line self =
  match convert_fields (fields line) with
  | inl e => (inl e, self)
  | inr wp => (inr tt, set_waypoints (waypoints_ self ++ [wp]) self)
  end.
Proof.
  unfold parseRoadMapLine. rewrite while_getline_for_each.
  fold (fields line).
  pose proof (read_numbers (fields line) []) as H.
  destruct (convert_fields (fields line)) as [e|vs].
  - destruct H as [wp' ->]. reflexivity.
  - rewrite H. reflexivity.
Qed.

Lemma for_each_parseRoadMapLine recs : forall self,
  for_each parseRoadMapLine recs self =
  (fst (ingest recs), set_waypoints (waypoints_ self ++ snd (ingest recs)) self).
Proof.
  induction recs as [|r rs IH]; intros self; cbn.
  - unfold ret. rewrite set_waypoints_nil. reflexivity.
  - unfold bind. rewrite parseRoadMapLine_fields.
    destruct (convert_fields (fields r)) as [e|wp]; cbn.
    + rewrite set_waypoints_nil. reflexivity.
    + rewrite IH. destruct (ingest rs) as [o ws]. cbn.
      rewrite <- app_assoc. reflexivity.
Qed.

Lemma readRoadmapFromCSV_ingest text self :
  readRoadmapFromCSV text self =
  (fst (ingest (records text)),
   set_waypoints (waypoints_ self ++ snd (ingest (records text))) self).
Proof.
  unfold readRoadmapFromCSV. rewrite while_getline_for_each.
  apply for_each_parseRoadMapLine.
Qed.

(** When some field is refused, the conversion ends at the first refused
    field in reading order, with the exception of that field. *)
Lemma convert_fields_first fs f ef :
  In f fs -> Strtof.stof f = inl ef ->
  exists e pre g post,
    fs = pre ++ g :: post /\ Forall converts pre
    /\ Strtof.stof g = inl e /\ convert_fields fs = inl e.
Proof.
  induction fs as [|a fs IH]; intros Hin Hf; [destruct Hin|].
  cbn. destruct (Strtof.stof a) as [ea|va] eqn:Ea.
  - exists ea, [], a, fs. repeat split; [constructor | exact Ea].
  - destruct Hin as [-> | Hin]; [congruence|].
    destruct (IH Hin Hf) as (e & pre & g & post & -> & Hpre & Hg & ->).
    exists e, (a :: pre), g, post. repeat split; [|exact Hg].
    constructor; [exists va; exact Ea | exact Hpre].
Qed.

Lemma convertsb_converts f : convertsb f = true -> converts f.
Proof.
  unfold convertsb, converts.
  destruct (Strtof.stof f) as [e|v]; [discriminate|]. intros _. exists v. reflexivity.
Qed.

Lemma all_convert_check recs :
  forallb (fun r => forallb convertsb (fields r)) recs = true ->
  Forall (fun r => Forall converts (fields r)) recs.
Proof.
  intros H. apply Forall_forall. intros r Hr. apply Forall_forall. intros f Hf.
  apply convertsb_converts.
  rewrite forallb_forall in H. specialize (H r Hr).
  rewrite forallb_forall in H. exact (H f Hf).
Qed.

Lemma convert_fields_all fs :
  Forall converts fs -> convert_fields fs = inr (map number fs).
Proof.
  induction 1 as [|f fs [v Hv] _ IH]; [reflexivity|].
  cbn. unfold number at 1. rewrite Hv, IH. reflexivity.
Qed.

Lemma convert_fields_length fs vs :
  convert_fields fs = inr vs -> length vs = length fs.
Proof.
  revert vs. induction fs as [|f fs IH]; intros vs; cbn.
  - intros [= <-]. reflexivity.
  - destruct (Strtof.stof f); [discriminate|].
    destruct (convert_fields fs) as [|ws]; [discriminate|].
    intros [= <-]. cbn. f_equal. apply IH. reflexivity.
Qed.

Lemma ingest_all recs :
  Forall (fun r => Forall converts (fields r)) recs ->
  ingest recs = (inr tt, map (fun r => map number (fields r)) recs).
Proof.
  induction 1 as [|r rs Hr _ IH]; [reflexivity|].
  cbn. rewrite (convert_fields_all _ Hr), IH. reflexivity.
Qed.

(** X9.  [readRoadmapFromCSV] writes [waypoints_] and nothing else: the
    centerline arrays, [x0_] and [map_sz_] are as they were before the
    call, however it ends. *)
Lemma readRoadmapFromCSV_leaves_centerline text self :
  let self' := snd (readRoadmapFromCSV text self) in
  cl_x_ self' = cl_x_ self /\ cl_y_ self' = cl_y_ self
  /\ cl_phi_ self' = cl_phi_ self
  /\ x0_ self' = x0_ self /\ map_sz_ self' = map_sz_ self.
Proof.
  cbv zeta. rewrite readRoadmapFromCSV_ingest. repeat split.
Qed.

(** X1.  [readRoadmapFromCSV] stops at the first record that fails: it
    throws the exception of that record, the records before it have been
    appended, the record itself and those after it are not. *)
Lemma readRoadmapFromCSV_stops text self pre line post e :
  records text = pre ++ line :: post ->
  Forall (fun r => Forall converts (fields r)) pre ->
  convert_fields (fields line) = inl e ->
  readRoadmapFromCSV text self =
  (inl e,
   set_waypoints (waypoints_ self ++ map (fun r => map number (fields r)) pre) self).
Proof.
  intros Hrec Hpre Hline. rewrite readRoadmapFromCSV_ingest, Hrec.
  assert (E : ingest (pre ++ line :: post)
              = (inl e, map (fun r => map number (fields r)) pre)).
  { clear Hrec. induction Hpre as [|r rs Hr _ IH]; cbn.
    - rewrite Hline. reflexivity.
    - rewrite (convert_fields_all _ Hr), IH. reflexivity. }
  rewrite E. reflexivity.
Qed.

End ReaderFacts.

(** ** Rounding stays in the format *)

Module IEEE_facts.

Section Format.
Variables prec emax : Z.
Hypothesis prec_pos : 0 < prec.

Local Abbreviation fexp := (fexp prec emax).
Local Abbreviation emin := (emin prec emax).

(* [fexp] is a maximum of two linear terms *)
Ltac fexp_lia := unfold SpecFloat.fexp in *; lia.

Lemma fexp_mono a b : a <= b -> fexp a <= fexp b.
Proof. fexp_lia. Qed.

Lemma fexp_ge_emin a : emin <= fexp a.
Proof. fexp_lia. Qed.

Lemma digits2_pos_bounds p :
  2 ^ (Zpos (digits2_pos p) - 1) <= Zpos p < 2 ^ Zpos (digits2_pos p).
Proof.
  induction p as [p IH|p IH|]; cbn [digits2_pos].
  - rewrite Pos2Z.inj_succ, Pos2Z.inj_xI.
    replace (Z.succ (Zpos (digits2_pos p)) - 1) with (Z.succ (Zpos (digits2_pos p) - 1)) by lia.
    rewrite !Z.pow_succ_r by lia.
    destruct IH as [IH1 IH2]. revert IH1 IH2.
    generalize (2 ^ (Zpos (digits2_pos p) - 1)) (2 ^ Zpos (digits2_pos p)). lia.
  - rewrite Pos2Z.inj_succ. change (Zpos p~0) with (2 * Zpos p).
    replace (Z.succ (Zpos (digits2_pos p)) - 1) with (Z.succ (Zpos (digits2_pos p) - 1)) by lia.
    rewrite !Z.pow_succ_r by lia.
    destruct IH as [IH1 IH2]. revert IH1 IH2.
    generalize (2 ^ (Zpos (digits2_pos p) - 1)) (2 ^ Zpos (digits2_pos p)). lia.
  - cbn. lia.
Qed.

Lemma Zdigits2_nonneg m : 0 <= Zdigits2 m.
Proof. destruct m; cbn; lia. Qed.

Lemma Zdigits2_bounds m :
  0 < m -> 2 ^ (Zdigits2 m - 1) <= m < 2 ^ Zdigits2 m.
Proof. destruct m as [|p|p]; try lia. intros _. apply digits2_pos_bounds. Qed.

Lemma Zdigits2_le m k : 0 <= k -> 0 <= m < 2 ^ k -> Zdigits2 m <= k.
Proof.
  intros Hk [H0 Hm]. destruct (Z.eq_dec m 0) as [->|Hne]; [cbn; lia|].
  destruct (Z.le_gt_cases (Zdigits2 m) k) as [|Hgt]; [assumption|].
  pose proof (Zdigits2_bounds m ltac:(lia)) as [Hlo _].
  assert (2 ^ k <= 2 ^ (Zdigits2 m - 1)) by (apply Z.pow_le_mono_r; lia).
  lia.
Qed.

Lemma Zdigits2_ge m k : 0 <= k -> 2 ^ k <= m -> k + 1 <= Zdigits2 m.
Proof.
  intros Hk Hm. assert (0 < m) by (pose proof (Z.pow_pos_nonneg 2 k); lia).
  destruct (Z.le_gt_cases (k + 1) (Zdigits2 m)) as [|Hlt]; [assumption|].
  pose proof (Zdigits2_bounds m ltac:(lia)) as [_ Hhi].
  pose proof (Zdigits2_nonneg m).
  assert (2 ^ Zdigits2 m <= 2 ^ k) by (apply Z.pow_le_mono_r; lia).
  lia.
Qed.

Lemma Zdigits2_unique m k : 0 < k -> 2 ^ (k - 1) <= m < 2 ^ k -> Zdigits2 m = k.
Proof.
  intros Hk [Hlo Hhi].
  assert (0 < m) by (pose proof (Z.pow_pos_nonneg 2 (k - 1)); lia).
  pose proof (Zdigits2_le m k ltac:(lia) ltac:(lia)).
  pose proof (Zdigits2_ge m (k - 1) ltac:(lia) Hlo). lia.
Qed.

(** Shifting right divides the mantissa. *)
Lemma shr_1_div2 r : 0 <= shr_m r -> shr_m (shr_1 r) = shr_m r / 2.
Proof.
  rewrite <- Z.div2_div. destruct r as [m rr ss]. cbn [shr_m].
  destruct m as [|[p|p|]|p]; intros H; try reflexivity; lia.
Qed.

Lemma iter_pos_nat {A} (f : A -> A) p : forall x,
  iter_pos f p x = Nat.iter (Pos.to_nat p) f x.
Proof.
  induction p as [p IH|p IH|]; intros x; cbn [iter_pos].
  - rewrite !IH, Pos2Nat.inj_xI. cbn [Nat.iter].
    rewrite <- Nat.iter_succ_r. rewrite <- Nat.iter_add. f_equal. lia.
  - rewrite !IH, Pos2Nat.inj_xO, <- Nat.iter_add. f_equal. lia.
  - reflexivity.
Qed.

Lemma shr_m_iter k : forall r, 0 <= shr_m r ->
  shr_m (Nat.iter k shr_1 r) = shr_m r / 2 ^ Z.of_nat k.
Proof.
  induction k as [|k IH]; intros r Hr.
  - cbn. rewrite Z.div_1_r. reflexivity.
  - rewrite Nat.iter_succ, shr_1_div2; rewrite IH by assumption.
    + rewrite Nat2Z.inj_succ, Z.pow_succ_r by lia.
      rewrite Z.div_div by lia. f_equal. lia.
    + apply Z.div_pos; [assumption|]. apply Z.pow_pos_nonneg; lia.
Qed.

Lemma shr_spec r e n : 0 <= shr_m r -> 0 <= n ->
  shr_m (fst (shr r e n)) = shr_m r / 2 ^ n /\ snd (shr r e n) = e + n.
Proof.
  intros Hr Hn. destruct n as [|p|p]; try lia; cbn [shr fst snd].
  - rewrite Z.div_1_r. lia.
  - rewrite iter_pos_nat, shr_m_iter by assumption.
    rewrite positive_nat_Z. auto.
Qed.

Lemma shr_m_of_loc m l : shr_m (shr_record_of_loc m l) = m.
Proof. destruct l as [|[]]; reflexivity. Qed.

Lemma round_nearest_even_cases m l :
  round_nearest_even m l = m \/ round_nearest_even m l = m + 1.
Proof. destruct l as [|[]]; cbn; auto. destruct (Z.even m); auto. Qed.

Lemma shr_nonpos r e n : n <= 0 -> shr r e n = (r, e).
Proof. destruct n; try reflexivity. lia. Qed.

(** The mantissa after the first shift has at most [prec] digits, and
    exactly [prec] above the least exponent. *)
Lemma first_shift_bounds mx ex :
  0 <= mx -> ex <= fexp (Zdigits2 mx + ex) ->
  let e1 := fexp (Zdigits2 mx + ex) in
  let m1 := mx / 2 ^ (e1 - ex) in
  0 <= m1 < 2 ^ prec /\ (emin < e1 -> 2 ^ (prec - 1) <= m1).
Proof.
  intros Hm Hex e1 m1.
  assert (Hp : 0 < 2 ^ (e1 - ex)) by (apply Z.pow_pos_nonneg; lia).
  destruct (Z.eq_dec mx 0) as [->|Hne].
  - subst m1. rewrite Z.div_0_l by lia. split.
    + split; [lia | apply Z.pow_pos_nonneg; lia].
    + subst e1. cbn [Zdigits2] in *. fexp_lia.
  - pose proof (Zdigits2_bounds mx ltac:(lia)) as [Hlo Hhi].
    pose proof (Zdigits2_nonneg mx) as Hd.
    split; [split|].
    + apply Z.div_pos; lia.
    + apply Z.div_lt_upper_bound; [lia|].
      rewrite <- Z.pow_add_r by lia.
      apply Z.lt_le_trans with (1 := Hhi).
      apply Z.pow_le_mono_r; [lia|]. subst e1. fexp_lia.
    + intros He. apply Z.div_le_lower_bound; [lia|].
      rewrite <- Z.pow_add_r by (subst e1; unfold SpecFloat.fexp in *; lia).
      apply Z.le_trans with (2 := Hlo).
      apply Z.pow_le_mono_r; [lia|]. subst e1. fexp_lia.
Qed.

Lemma binary_round_aux_valid sx mx ex lx :
  0 <= mx -> ex <= fexp (Zdigits2 mx + ex) ->
  valid_binary prec emax (binary_round_aux prec emax sx mx ex lx) = true.
Proof.
  intros Hm Hex.
  destruct (first_shift_bounds mx ex Hm Hex) as [[Hm1 Hm1'] Hnorm].
  unfold binary_round_aux, shr_fexp.
  set (e1 := fexp (Zdigits2 mx + ex)) in *.
  assert (Hemin : emin <= e1) by apply fexp_ge_emin.
  destruct (shr (shr_record_of_loc mx lx) ex (e1 - ex)) as [r1 e1'] eqn:S1.
  destruct (shr_spec (shr_record_of_loc mx lx) ex (e1 - ex)) as [Hr1 He1];
    [rewrite shr_m_of_loc; lia | lia |].
  rewrite S1, shr_m_of_loc in Hr1. rewrite S1 in He1. cbn [fst snd] in Hr1, He1.
  assert (He1' : e1' = e1) by lia. clear He1 S1. subst e1'.
  rewrite <- Hr1 in Hm1, Hm1', Hnorm. clear Hr1.
  set (m2 := round_nearest_even (shr_m r1) (loc_of_shr_record r1)).
  assert (Hm2 : 0 <= m2 <= 2 ^ prec /\ (emin < e1 -> 2 ^ (prec - 1) <= m2)).
  { destruct (round_nearest_even_cases (shr_m r1) (loc_of_shr_record r1)) as [E|E];
      fold m2 in E; rewrite E; (split; [lia|]);
      intros He; specialize (Hnorm He); lia. }
  destruct Hm2 as [[Hm2 Hm2'] Hnorm2].
  set (n2 := fexp (Zdigits2 m2 + e1) - e1).
  assert (Hn2 : (m2 < 2 ^ prec /\ n2 <= 0 /\ (0 < m2 -> n2 = 0))
                \/ (m2 = 2 ^ prec /\ n2 = 1)).
  { destruct (Z.eq_dec m2 (2 ^ prec)) as [E|NE].
    - right. split; [assumption|]. subst n2.
      rewrite (Zdigits2_unique m2 (prec + 1)).
      + fexp_lia.
      + lia.
      + rewrite E. replace (prec + 1 - 1) with prec by lia.
        split; [lia|]. apply Z.pow_lt_mono_r; lia.
    - left. split; [lia|].
      assert (Hd2 : Zdigits2 m2 <= prec) by (apply Zdigits2_le; lia).
      pose proof (Zdigits2_nonneg m2).
      subst n2. split.
      + fexp_lia.
      + intros Hpos. destruct (Z.eq_dec e1 emin) as [Ee|Ee].
        * fexp_lia.
        * assert (Zdigits2 m2 = prec).
          { apply Zdigits2_unique; [lia|]. split; [apply Hnorm2|]; lia. }
          fexp_lia. }
  destruct (shr (shr_record_of_loc m2 loc_Exact) e1 n2) as [r2 e2] eqn:S2.
  destruct Hn2 as [(Hlt & Hle & Hz) | (Heq & Hone)].
  - rewrite shr_nonpos in S2 by assumption. injection S2 as <- <-.
    cbn [shr_record_of_loc shr_m].
    destruct m2 as [|m|m]; try reflexivity.
    destruct (e1 <=? emax - prec) eqn:Le; [|reflexivity].
    cbn [valid_binary]. unfold bounded, canonical_mantissa. rewrite Le.
    specialize (Hz ltac:(lia)). subst n2. cbn [Zdigits2] in Hz.
    rewrite andb_true_r. apply Z.eqb_eq. lia.
  - destruct (shr_spec (shr_record_of_loc m2 loc_Exact) e1 n2) as [Hr2 He2];
      [rewrite shr_m_of_loc; lia | lia |].
    rewrite S2, shr_m_of_loc in Hr2. rewrite S2 in He2. cbn [fst snd] in Hr2, He2.
    rewrite Hone in Hr2, He2. rewrite Heq in Hr2.
    assert (Hmant : shr_m r2 = 2 ^ (prec - 1)).
    { rewrite Hr2. replace prec with (prec - 1 + 1) at 1 by lia.
      rewrite Z.pow_add_r by lia. apply Z.div_mul. discriminate. }
    rewrite Hmant.
    destruct (2 ^ (prec - 1)) as [|m|m] eqn:Em; try reflexivity.
    destruct (e2 <=? emax - prec) eqn:Le; [|reflexivity].
    cbn [valid_binary]. unfold bounded, canonical_mantissa. rewrite Le.
    rewrite andb_true_r. apply Z.eqb_eq.
    change (Zpos (digits2_pos m)) with (Zdigits2 (Zpos m)).
    rewrite (Zdigits2_unique (Zpos m) prec); [| lia |].
    + fexp_lia.
    + rewrite <- Em. split; [lia|]. apply Z.pow_lt_mono_r; lia.
Qed.

Lemma digits2_pos_iter_xO m d :
  Zpos (digits2_pos (Pos.iter xO m d)) = Zpos (digits2_pos m) + Zpos d.
Proof.
  induction d as [|d IH] using Pos.peano_ind.
  - cbn. lia.
  - rewrite Pos.iter_succ. cbn [digits2_pos]. rewrite Pos2Z.inj_succ, IH. lia.
Qed.

Lemma shl_align_spec mx ex ex' :
  let '(mz, ez) := shl_align mx ex ex' in
  Zpos (digits2_pos mz) + ez = Zpos (digits2_pos mx) + ex
  /\ (ez = ex' \/ (ez = ex /\ ex <= ex')).
Proof.
  unfold shl_align. destruct (ex' - ex) as [|d|d] eqn:E.
  - split; [reflexivity | right; lia].
  - split; [reflexivity | right; lia].
  - rewrite digits2_pos_iter_xO. split; [lia | left; reflexivity].
Qed.

Lemma binary_round_valid sx mx ex :
  valid_binary prec emax (binary_round prec emax sx mx ex) = true.
Proof.
  unfold binary_round.
  pose proof (shl_align_spec mx ex (fexp (Zpos (digits2_pos mx) + ex))) as H.
  destruct (shl_align mx ex (fexp (Zpos (digits2_pos mx) + ex))) as [mz ez].
  destruct H as [Hd Hez].
  apply binary_round_aux_valid; [lia|].
  cbn [Zdigits2]. rewrite Hd. lia.
Qed.

Lemma binary_normalize_valid m e szero :
  valid_binary prec emax (binary_normalize prec emax m e szero) = true.
Proof. destruct m; [reflexivity | apply binary_round_valid ..]. Qed.

Lemma SFdiv_core_binary_spec m1 e1 m2 e2 :
  0 < m1 -> 0 < m2 ->
  let '(q, e', _) := SFdiv_core_binary prec emax m1 e1 m2 e2 in
  0 <= q /\ e' <= fexp (Zdigits2 q + e').
Proof.
  intros H1 H2. unfold SFdiv_core_binary.
  set (d1 := Zdigits2 m1). set (d2 := Zdigits2 m2).
  set (e' := Z.min (fexp (d1 + e1 - (d2 + e2))) (e1 - e2)).
  set (s := e1 - e2 - e').
  set (m' := match s with Zpos _ => Z.shiftl m1 s | Z0 => m1 | Zneg _ => 0 end).
  assert (Hs : 0 <= s) by (subst s e'; lia).
  assert (Hm' : m' = m1 * 2 ^ s).
  { subst m'. destruct s as [|p|p] eqn:Es; [rewrite Z.mul_1_r; reflexivity | | lia].
    rewrite Z.shiftl_mul_pow2 by lia. reflexivity. }
  clearbody m'. subst m'.
  pose proof (Z.div_eucl_eq (m1 * 2 ^ s) m2 ltac:(lia)) as Hq.
  pose proof (Z.mod_pos_bound (m1 * 2 ^ s) m2 ltac:(lia)) as Hr.
  unfold Z.modulo in Hr.
  assert (Hdiv : fst (Z.div_eucl (m1 * 2 ^ s) m2) = m1 * 2 ^ s / m2) by reflexivity.
  destruct (Z.div_eucl (m1 * 2 ^ s) m2) as [q r]. cbn [fst] in Hdiv.
  assert (Hp : 0 < 2 ^ s) by (apply Z.pow_pos_nonneg; lia).
  assert (Hq0 : 0 <= q) by (rewrite Hdiv; apply Z.div_pos; nia).
  split; [assumption|].
  apply Z.le_trans with (fexp (d1 + e1 - (d2 + e2))); [subst e'; lia|].
  apply fexp_mono.
  pose proof (Zdigits2_nonneg q) as Hdq.
  destruct (Z.le_gt_cases (d1 + s - d2) 0) as [Hle|Hgt]; [subst s; lia|].
  enough (d1 + s - d2 <= Zdigits2 q) by (subst s; lia).
  replace (d1 + s - d2) with (d1 + s - d2 - 1 + 1) by lia.
  apply Zdigits2_ge; [lia|].
  rewrite Hdiv. apply Z.div_le_lower_bound; [lia|].
  pose proof (Zdigits2_bounds m1 H1) as [Hlo1 _].
  pose proof (Zdigits2_bounds m2 H2) as [_ Hhi2].
  fold d1 in Hlo1. fold d2 in Hhi2.
  pose proof (Zdigits2_nonneg m2) as Hd2. fold d2 in Hd2.
  assert (Hd1 : 0 < d1) by (subst d1; destruct m1; cbn; lia).
  apply Z.le_trans with (2 ^ d2 * 2 ^ (d1 + s - d2 - 1)).
  - apply Z.mul_le_mono_nonneg_r; [apply Z.pow_nonneg|]; lia.
  - rewrite <- Z.pow_add_r by lia.
    replace (d2 + (d1 + s - d2 - 1)) with (d1 - 1 + s) by lia.
    rewrite Z.pow_add_r by lia.
    apply Z.mul_le_mono_nonneg_r; lia.
Qed.

Lemma SFdiv_valid x y :
  valid_binary prec emax (SFdiv prec emax x y) = true.
Proof.
  destruct x as [sx|sx| |sx mx ex], y as [sy|sy| |sy my ey];
    try reflexivity.
  cbn [SFdiv].
  pose proof (SFdiv_core_binary_spec (Zpos mx) ex (Zpos my) ey) as H.
  destruct (SFdiv_core_binary prec emax (Zpos mx) ex (Zpos my) ey) as [[q e'] l].
  destruct H as [Hq He]; [lia | lia |].
  apply binary_round_aux_valid; assumption.
Qed.



Lemma binary_round_aux_canonical s m e :
  bounded prec emax m e = true ->
  binary_round_aux prec emax s (Zpos m) e loc_Exact = S754_finite s m e.
Proof.
  unfold bounded, canonical_mantissa. intros H.
  apply andb_true_iff in H. destruct H as [Hc Hb]. apply Z.eqb_eq in Hc.
  unfold binary_round_aux, shr_fexp. cbn [Zdigits2 shr_record_of_loc].
  rewrite Hc, Z.sub_diag. cbn [shr shr_m loc_of_shr_record round_nearest_even].
  cbn [Zdigits2 shr_record_of_loc]. rewrite Hc, Z.sub_diag. cbn [shr shr_m].
  rewrite Hb. reflexivity.
Qed.


(** Widening: the mantissa is shifted left to the canonical exponent. *)
Lemma binary_round_widen s m e :
  let ez := fexp (Zpos (digits2_pos m) + e) in
  ez < e -> ez <= emax - prec ->
  binary_round prec emax s m e
  = S754_finite s (Pos.iter xO m (Z.to_pos (e - ez))) ez.
Proof.
  intros ez Hlt Hle. unfold binary_round, shl_align. fold ez.
  destruct (ez - e) as [|d|d] eqn:E; try lia.
  replace (Z.to_pos (e - ez)) with d by lia.
  apply binary_round_aux_canonical.
  unfold bounded, canonical_mantissa. rewrite digits2_pos_iter_xO.
  replace (Zpos (digits2_pos m) + Zpos d + ez) with (Zpos (digits2_pos m) + e) by lia.
  fold ez. rewrite Z.eqb_refl. apply Z.leb_le. assumption.
Qed.


End Format.
End IEEE_facts.

Section Widening.
Import IEEE IEEE_facts.

Lemma prec32_pos : 0 < prec32. Proof. reflexivity. Qed.
Lemma prec64_pos : 0 < prec64. Proof. reflexivity. Qed.

Lemma double_of_float_finite s m e :
  is_float (S754_finite s m e) = true ->
  exists k, double_of_float (S754_finite s m e)
            = S754_finite s (Pos.iter xO m k) (e - Zpos k).
Proof.
  unfold is_float. cbn [valid_binary]. intros H.
  unfold bounded, canonical_mantissa in H. apply andb_true_iff in H.
  destruct H as [Hc Hb]. apply Z.eqb_eq in Hc. apply Z.leb_le in Hb.
  pose proof (Pos2Z.is_pos (digits2_pos m)) as Hd.
  unfold fexp, emin, prec32, emax32 in *.
  cbn [double_of_float]. rewrite binary_round_widen;
    unfold fexp, emin, prec64, emax64; [|lia|lia].
  set (ez := Z.max (Zpos (digits2_pos m) + e - 53) (3 - 1024 - 53)).
  exists (Z.to_pos (e - ez)). f_equal.
  rewrite Z2Pos.id by (subst ez; lia). lia.
Qed.


Lemma double_of_float_is_double v : is_double (double_of_float v) = true.
Proof.
  destruct v as [s|s| |s m e]; try reflexivity.
  apply binary_round_valid, prec64_pos.
Qed.


End Widening.

(** ** What [stof] returns is a float *)

Section StofFacts.
Context {libc : Libc}.
Import IEEE IEEE_facts.

Lemma round_binary_is_float s m e : is_float (round_binary s m e) = true.
Proof. apply binary_normalize_valid, prec32_pos. Qed.

Lemma round_decimal_is_float s m e : is_float (round_decimal s m e) = true.
Proof.
  unfold round_decimal. destruct (0 <=? e).
  - apply round_binary_is_float.
  - apply SFdiv_valid, prec32_pos.
Qed.

Lemma finish_is_float nptr neg m v tiny rest :
  is_float v = true ->
  is_float (Strtof.value (Strtof.finish nptr neg m v tiny rest)) = true.
Proof.
  intros H. unfold Strtof.finish. cbn [Strtof.value].
  destruct (m =? 0); [reflexivity | assumption].
Qed.

Lemma strtof_is_float nptr c :
  Strtof.strtof nptr = Some c -> is_float (Strtof.value c) = true.
Proof.
  unfold Strtof.strtof.
  destruct (Strtof.scan_sign (Strtof.skip_space nptr)) as [neg s].
  destruct (Strtof.skip_word "inf" s); [intros [= <-]; reflexivity|].
  destruct (Strtof.skip_word "nan" s); [intros [= <-]; reflexivity|].
  destruct (Strtof.scan_hex nptr neg s) as [h|] eqn:Eh.
  - intros [= <-]. revert Eh. unfold Strtof.scan_hex.
    destruct s as [|z [|x s']]; try discriminate.
    destruct (Ascii.eqb z "0" && Ascii.eqb (Ctype.tolower x) "x"); [|discriminate].
    destruct (Strtof.scan_mantissa _ _ _ s') as [[[m nf] r]|]; [|discriminate].
    destruct (Strtof.scan_exponent "p" r) as [ep r'].
    intros [= <-]. apply finish_is_float, round_binary_is_float.
  - unfold Strtof.scan_decimal.
    destruct (Strtof.scan_mantissa _ _ _ s) as [[[m nf] r]|]; [|discriminate].
    destruct (Strtof.scan_exponent "e" r) as [ex r'].
    intros [= <-]. apply finish_is_float, round_decimal_is_float.
Qed.

Lemma stof_is_float str v :
  Strtof.stof str = inr v -> is_float v = true.
Proof.
  unfold Strtof.stof.
  destruct (Strtof.strtof (Strtof.c_str str)) as [c|] eqn:E; [|discriminate].
  destruct (Strtof.erange c); [discriminate|].
  intros [= <-]. exact (strtof_is_float _ _ E).
Qed.

End StofFacts.

Section StoredFloats.
Context {libc : Libc}.
Import IEEE.



End StoredFloats.

(** ** The claims about the roadmap reader *)

Section ReaderClaims.
Context {libc : Libc}.

(** C1, as amended.  When a record has a field in which [strtof] finds no
    number to convert, [parseRoadMapLine] throws and leaves the object as
    it was: no waypoint is appended.  The exception is the one of the first
    field, in reading order, that [std::stof] refuses:
    [std::invalid_argument], unless a field read before the one without a
    number is out of the range of float and is the first refused, which
    throws [std::out_of_range]. *)
Theorem parseRoadMapLine_no_number_throws (line : string) (self : IpoptMPC) (f : string) :
  In f (fields line) ->
  Strtof.strtof (Strtof.c_str f) = None ->
  exists (e : exn) (pre : list string) (g : string) (post : list string),
    parseRoadMapLine line self = (inl e, self)
    /\ fields line = pre ++ g :: post
    /\ Forall converts pre
    /\ Strtof.stof g = inl e
    /\ (e = invalid_argument \/ (e = out_of_range /\ In f post)).
Proof.
  intros Hin Hnone.
  assert (Hf : Strtof.stof f = inl invalid_argument)
    by (unfold Strtof.stof; rewrite Hnone; reflexivity).
  destruct (convert_fields_first _ _ _ Hin Hf) as (e & pre & g & post & Hfs & Hpre & Hg & Hc).
  exists e, pre, g, post. rewrite parseRoadMapLine_fields, Hc.
  repeat split; try assumption.
  destruct e; [left; reflexivity|]. right. split; [reflexivity|].
  rewrite Hfs in Hin. apply in_app_or in Hin. destruct Hin as [Hin | [<- | Hin]].
  - rewrite Forall_forall in Hpre. destruct (Hpre f Hin) as [v Hv]. congruence.
  - congruence.
  - exact Hin.
Qed.

(** C2, as amended.  When [std::stof] converts every field of every
    record of the text, [readRoadmapFromCSV] returns normally and the
    waypoint sequence is the one before followed by one waypoint per
    record, in the order of the records, each with one value per field in
    the order of the fields. *)
Theorem readRoadmapFromCSV_appends_in_order (text : string) (self : IpoptMPC) :
  Forall (fun r => Forall converts (fields r)) (records text) ->
  readRoadmapFromCSV text self =
  (inr tt,
   set_waypoints
     (waypoints_ self ++ map (fun r => map number (fields r)) (records text))
     self).
Proof.
  intros H. rewrite readRoadmapFromCSV_ingest, (ingest_all _ H). reflexivity.
Qed.

(** C3, as amended.  A record that [parseRoadMapLine] accepts appends one
    waypoint, and the waypoint has exactly as many values as the record
    has fields; no minimum is enforced. *)
Theorem parseRoadMapLine_waypoint_length (line : string) (self self' : IpoptMPC) :
  parseRoadMapLine line self = (inr tt, self') ->
  exists wp, waypoints_ self' = waypoints_ self ++ [wp]
    /\ length wp = length (fields line).
Proof.
  rewrite parseRoadMapLine_fields.
  destruct (convert_fields (fields line)) as [e|wp] eqn:Ec; [discriminate|].
  intros [= <-]. exists wp. split; [reflexivity|].
  exact (convert_fields_length _ _ Ec).
Qed.

(** C9.  [readRoadmapFromCSV] reads the characters of its argument: how the
    call ends and which waypoints it appends are functions of the argument
    alone, the same for every object it is called on.  Nothing names a
    file. *)
Theorem readRoadmapFromCSV_reads_its_argument (roadmap_file_name : string) :
  exists (outcome : exn + unit) (ws : list (list double)),
    (outcome, ws) = ingest (records roadmap_file_name)
    /\ forall self : IpoptMPC,
         readRoadmapFromCSV roadmap_file_name self =
         (outcome, set_waypoints (waypoints_ self ++ ws) self).
Proof.
  exists (fst (ingest (records roadmap_file_name))),
         (snd (ingest (records roadmap_file_name))).
  split; [destruct (ingest _); reflexivity|].
  intros self. apply readRoadmapFromCSV_ingest.
Qed.


End ReaderClaims.

(** The record [1,a] of the design's example: the second field has no
    number, the call throws and the object keeps its waypoints. *)
Lemma parseRoadMapLine_no_number_throws_witness :
  exists (e : exn) (pre : list string) (g : string) (post : list string),
    @parseRoadMapLine libc_strict "1,a" fresh = (inl e, fresh)
    /\ fields "1,a" = pre ++ g :: post
    /\ Forall (@converts libc_strict) pre
    /\ @Strtof.stof libc_strict g = inl e
    /\ (e = invalid_argument \/ (e = out_of_range /\ In "a"%string post)).
Proof.
  apply (@parseRoadMapLine_no_number_throws libc_strict "1,a" fresh "a").
  - vm_compute. auto.
  - reflexivity.
Defined.

(** The order of the fields decides: an oversized number before the field
    without a number throws [std::out_of_range], after it
    [std::invalid_argument]. *)
Example parseRoadMapLine_reading_order :
  @parseRoadMapLine libc_strict "1e39,a" fresh = (inl out_of_range, fresh)
  /\ @parseRoadMapLine libc_strict "a,1e39" fresh = (inl invalid_argument, fresh).
Proof. split; vm_compute; reflexivity. Qed.

(** C1 as stated fails: the field [1a] is not a number, yet [stof] converts
    its prefix and the record appends the waypoint (1.0). *)
Lemma parseRoadMapLine_converts_prefix :
  fields "1a" = ["1a"%string]
  /\ @numeric libc_strict "1a" = false
  /\ @parseRoadMapLine libc_strict "1a" fresh = (inr tt, set_waypoints [[d_one]] fresh).
Proof. repeat split; vm_compute; reflexivity. Qed.

Lemma readRoadmapFromCSV_appends_in_order_witness :
  @readRoadmapFromCSV libc_strict (text_of ["0,0"; "1,0.5"]) fresh =
  (inr tt,
   set_waypoints
     (waypoints_ fresh
      ++ map (fun r => map (@number libc_strict) (fields r))
             (records (text_of ["0,0"; "1,0.5"])))
     fresh).
Proof.
  apply (@readRoadmapFromCSV_appends_in_order libc_strict).
  apply all_convert_check. vm_compute. reflexivity.
Defined.

(** C2 as stated fails: [1e39] is a number, too large for a float;
    [stof] throws [std::out_of_range] and nothing is appended, whatever the
    C library does about underflow. *)
Lemma readRoadmapFromCSV_number_out_of_range :
  records "1e39" = ["1e39"%string]
  /\ fields "1e39" = ["1e39"%string]
  /\ @numeric libc_strict "1e39" = true
  /\ @readRoadmapFromCSV libc_strict "1e39" fresh = (inl out_of_range, fresh)
  /\ @readRoadmapFromCSV libc_quiet "1e39" fresh = (inl out_of_range, fresh).
Proof. repeat split; vm_compute; reflexivity. Qed.

Lemma parseRoadMapLine_waypoint_length_witness :
  exists wp, waypoints_ (set_waypoints [[d_one; d_half]] fresh) = waypoints_ fresh ++ [wp]
    /\ length wp = length (fields "1,0.5").
Proof.
  apply (@parseRoadMapLine_waypoint_length libc_strict "1,0.5" fresh).
  vm_compute. reflexivity.
Defined.

(** C3 as stated fails: the record [5] is accepted and its waypoint has a
    single value; an empty line is accepted and its waypoint has none. *)
Lemma parseRoadMapLine_short_waypoint :
  @parseRoadMapLine libc_strict "5" fresh = (inr tt, set_waypoints [[d_five]] fresh)
  /\ (length [d_five] < 2)%nat
  /\ @readRoadmapFromCSV libc_strict (String LF "") fresh
     = (inr tt, set_waypoints [[]] fresh).
Proof. repeat split; vm_compute; reflexivity. Qed.


(** What [strtof] makes of some fields. *)
Example strtof_samples :
  map (fun f => option_map Strtof.value (@Strtof.strtof libc_strict f))
      ["1"; " 1"; "1a"; "-.5"; "5."; "0x1p-1"; "0x"; "1e"; "inf"; "-Infinity"; "NaN(7)"]%string
  = [Some d_float_one; Some d_float_one; Some d_float_one;
     Some (S754_finite true 8388608 (-24)); Some (S754_finite false 10485760 (-21));
     Some (S754_finite false 8388608 (-24)); Some (S754_zero false);
     Some d_float_one; Some (S754_infinity false); Some (S754_infinity true);
     Some S754_nan]
  /\ map (@Strtof.strtof libc_strict) [""; "a"; "."; "+"; "e5"; "- 1"; ","]%string
     = [None; None; None; None; None; None; None].
Proof. split; vm_compute; reflexivity. Qed.

(** Rounding to nearest, ties to even; the largest float; overflow; the
    least subnormal and what rounds to zero. *)
Example stof_rounding :
  map (@Strtof.stof libc_quiet)
      ["16777217"; "16777219"; "3.4028235e38"; "3.4028236e38";
       "0x1.fffffep127"; "0x1.ffffffp127"; "1e-45"; "7e-46"]%string
  = [inr (S754_finite false 8388608 1); inr (S754_finite false 8388610 1);
     inr (S754_finite false 16777215 104); inl out_of_range;
     inr (S754_finite false 16777215 104); inl out_of_range;
     inr (S754_finite false 1 (-149)); inr (S754_zero false)].
Proof. vm_compute. reflexivity. Qed.

(** With a C library that reports underflow, a number below the least
    normal float is refused as well. *)
Example stof_underflow :
  @Strtof.stof libc_strict "1e-45" = inl out_of_range
  /\ @Strtof.stof libc_strict "0x1p-126" = inr (S754_finite false 8388608 (-149)).
Proof. split; vm_compute; reflexivity. Qed.

(** Lines that end in CR LF are read: the CR follows the number of the
    last field and is ignored. *)
Example readRoadmapFromCSV_crlf :
  @readRoadmapFromCSV libc_strict
     (String "1" (String "," (String "5" (String "013" (String LF "")))))
     fresh
  = (inr tt, set_waypoints [[d_one; d_five]] fresh).
Proof. vm_compute. reflexivity. Qed.

(** Duplicate records are kept, each as its own waypoint. *)
Example readRoadmapFromCSV_duplicates :
  waypoints_ (snd (@readRoadmapFromCSV libc_strict (text_of ["1,0.5"; "1,0.5"]) fresh))
  = [[d_one; d_half]; [d_one; d_half]].
Proof. vm_compute. reflexivity. Qed.

(** The double nearest to 0.1 is not the widening of a float. *)
Example tenth_not_representable :
  ~ IEEE.float_representable (S754_finite false 7205759403792794 (-56)).
Proof. unfold IEEE.float_representable. vm_compute. discriminate. Qed.

(** A file name given to [readRoadmapFromCSV] is read as a record. *)
Example readRoadmapFromCSV_file_name :
  @readRoadmapFromCSV libc_strict "roadmap.csv" fresh = (inl invalid_argument, fresh).
Proof. vm_compute. reflexivity. Qed.

(** The design's example text, four points on a line. *)
Example readRoadmapFromCSV_line :
  waypoints_ (snd (@readRoadmapFromCSV libc_strict (text_of ["0,0"; "1,0"; "2,0"; "3,0"]) fresh))
  = [[S754_zero false; S754_zero false];
     [d_one; S754_zero false];
     [S754_finite false 4503599627370496 (-51); S754_zero false];
     [S754_finite false 6755399441055744 (-51); S754_zero false]].
Proof. vm_compute. reflexivity. Qed.

(** [0.1] is stored as the float nearest to it, which is not the double
    nearest to it. *)
Example stored_tenth :
  @number libc_strict "0.1" = S754_finite false 7205759511166976 (-56)
  /\ SFdiv IEEE.prec64 IEEE.emax64 (S754_finite false 1 0) (S754_finite false 10 0)
     = S754_finite false 7205759403792794 (-56).
Proof. split; vm_compute; reflexivity. Qed.

(** ** More about the two loops *)

Section StreamFacts.

Lemma split_nil d s : split d s = [] -> s = EmptyString.
Proof.
  destruct s as [|c s]; cbn; [reflexivity|].
  destruct (Ascii.eqb c d); [discriminate|].
  destruct (split d s); discriminate.
Qed.

Lemma split_cons_nonempty d c s : split d (String c s) <> [].
Proof. intros H. apply split_nil in H. discriminate. Qed.

Lemma for_each_app {S} (body : string -> M S unit) l1 l2 : forall st,
  for_each body (l1 ++ l2) st
  = bind (for_each body l1) (fun _ => for_each body l2) st.
Proof.
  induction l1 as [|t ts IH]; intros st; [reflexivity|].
  cbn [for_each app]. unfold bind.
  destruct (body t st) as [[e|u] st']; [reflexivity|].
  rewrite IH. reflexivity.
Qed.

(** A stream that ends at a delimiter splits where it ends. *)
Lemma split_app d s t :
  line_complete d s = true -> split d (s +++ t) = split d s ++ split d t.
Proof.
  induction s as [|c rest IH]; [reflexivity|].
  cbn [line_complete]. destruct rest as [|c' r'].
  - intros E. cbn. rewrite E. reflexivity.
  - remember (String c' r') as r eqn:Hr. intros E. specialize (IH E).
    change (String c r +++ t) with (String c (r +++ t)).
    cbn [split]. rewrite IH.
    destruct (Ascii.eqb c d); [reflexivity|].
    destruct (split d r) as [|tok toks] eqn:Es; [|reflexivity].
    exfalso. subst r. exact (split_cons_nonempty _ _ _ Es).
Qed.

(** A delimiter after the last piece opens no further piece. *)
Lemma split_trailing d s :
  line_complete d s = false -> split d (s +++ String d EmptyString) = split d s.
Proof.
  induction s as [|c rest IH]; [discriminate|].
  cbn [line_complete]. destruct rest as [|c' r'].
  - intros E. cbn. rewrite E, Ascii.eqb_refl. reflexivity.
  - remember (String c' r') as r eqn:Hr. intros E. specialize (IH E).
    change (String c r +++ String d EmptyString)
      with (String c (r +++ String d EmptyString)).
    cbn [split]. rewrite IH. reflexivity.
Qed.

Lemma split_token d x r :
  has_char d x = false -> split d (x +++ String d r) = x :: split d r.
Proof.
  induction x as [|c x IH]; cbn.
  - intros _. rewrite Ascii.eqb_refl. reflexivity.
  - intros H. apply orb_false_iff in H. destruct H as [Hc Hx].
    rewrite Hc, (IH Hx). reflexivity.
Qed.

Lemma split_single d x :
  has_char d x = false -> x <> EmptyString -> split d x = [x].
Proof.
  induction x as [|c x IH]; [congruence|]. cbn. intros H _.
  apply orb_false_iff in H. destruct H as [Hc Hx]. rewrite Hc.
  destruct x as [|c' x']; [reflexivity|].
  rewrite (IH Hx) by discriminate. reflexivity.
Qed.

Lemma split_concat d ls :
  Forall (fun l => has_char d l = false) ls ->
  last ls (String d EmptyString) <> EmptyString ->
  split d (String.concat (String d EmptyString) ls) = ls.
Proof.
  induction 1 as [|x xs Hx Hxs IH]; [reflexivity|].
  destruct xs as [|y ys].
  - cbn. intros Hl. apply split_single; assumption.
  - intros Hl. change (String.concat (String d EmptyString) (x :: y :: ys))
      with (x +++ String d EmptyString +++ String.concat (String d EmptyString) (y :: ys)).
    change (String d EmptyString +++ ?r) with (String d r).
    cbn [String.append]. rewrite (split_token _ _ _ Hx). f_equal.
    apply IH. exact Hl.
Qed.

Lemma split_no_delim d s : Forall (fun tok => has_char d tok = false) (split d s).
Proof.
  induction s as [|c s IH]; cbn; [constructor|].
  destruct (Ascii.eqb c d) eqn:E.
  - constructor; [reflexivity | assumption].
  - destruct (split d s) as [|tok toks].
    + constructor; [cbn; rewrite E; reflexivity | constructor].
    + inversion IH; subst. constructor; [cbn; rewrite E; assumption | assumption].
Qed.

Lemma concat_cons_char sep c tok toks :
  String.concat sep (String c tok :: toks) = String c (String.concat sep (tok :: toks)).
Proof. destruct toks; reflexivity. Qed.

Lemma split_join d s :
  String.concat (String d EmptyString) (split d s)
    +++ (if line_complete d s
         then match s with EmptyString => EmptyString | _ => String d EmptyString end
         else EmptyString)
  = s.
Proof.
  induction s as [|c rest IH]; [reflexivity|].
  cbn [split line_complete]. destruct rest as [|c' r'].
  - cbn. destruct (Ascii.eqb c d) eqn:E; cbn; [|reflexivity].
    apply Ascii.eqb_eq in E. subst. reflexivity.
  - remember (String c' r') as r eqn:Hr.
    destruct (split d r) as [|tok toks] eqn:Es;
      [exfalso; subst r; exact (split_cons_nonempty _ _ _ Es)|].
    assert (Hj : String.concat (String d EmptyString) (tok :: toks)
                 +++ (if line_complete d r then String d EmptyString else EmptyString)
                 = r) by (rewrite Hr in IH |- *; exact IH).
    destruct (Ascii.eqb c d) eqn:E.
    + apply Ascii.eqb_eq in E. subst c.
      change (String.concat (String d EmptyString) (EmptyString :: tok :: toks))
        with (String d (String.concat (String d EmptyString) (tok :: toks))).
      cbn [String.append]. f_equal. exact Hj.
    + rewrite concat_cons_char. cbn [String.append]. f_equal. exact Hj.
Qed.

End StreamFacts.

(** ** Values that are not numbers *)

Section SpecialValues.
Import IEEE IEEE_facts.

Lemma shr_m_nonneg r e n : 0 <= shr_m r -> 0 <= shr_m (fst (shr r e n)).
Proof.
  intros H. destruct (Z.le_gt_cases n 0) as [Hn|Hn].
  - rewrite shr_nonpos by assumption. exact H.
  - destruct (shr_spec r e n H ltac:(lia)) as [-> _].
    apply Z.div_pos; [assumption | apply Z.pow_pos_nonneg; lia].
Qed.

Lemma round_nearest_even_nonneg m l : 0 <= m -> 0 <= round_nearest_even m l.
Proof. destruct (round_nearest_even_cases m l) as [-> | ->]; lia. Qed.

Lemma binary_round_aux_not_nan prec emax sx mx ex lx :
  0 <= mx -> binary_round_aux prec emax sx mx ex lx <> S754_nan.
Proof.
  intros Hm. unfold binary_round_aux, shr_fexp.
  set (n1 := fexp prec emax (Zdigits2 mx + ex) - ex).
  pose proof (shr_m_nonneg (shr_record_of_loc mx lx) ex n1) as H1.
  rewrite shr_m_of_loc in H1. specialize (H1 Hm).
  destruct (shr (shr_record_of_loc mx lx) ex n1) as [r1 e1]. cbn [fst] in H1.
  set (m2 := round_nearest_even (shr_m r1) (loc_of_shr_record r1)).
  assert (Hm2 : 0 <= m2) by (apply round_nearest_even_nonneg; exact H1).
  set (n2 := fexp prec emax (Zdigits2 m2 + e1) - e1).
  pose proof (shr_m_nonneg (shr_record_of_loc m2 loc_Exact) e1 n2) as H2.
  rewrite shr_m_of_loc in H2. specialize (H2 Hm2).
  destruct (shr (shr_record_of_loc m2 loc_Exact) e1 n2) as [r2 e2]. cbn [fst] in H2.
  destruct (shr_m r2) as [|m|m]; [discriminate | | lia].
  destruct (e2 <=? emax - prec); discriminate.
Qed.

Lemma round_binary_not_nan s m e : round_binary s m e <> S754_nan.
Proof.
  unfold round_binary, binary_normalize.
  destruct (cond_Zopp s m) as [|p|p]; [discriminate | |];
    unfold binary_round;
    destruct (shl_align p e _) as [mz ez];
    apply binary_round_aux_not_nan; lia.
Qed.

Lemma round_decimal_not_nan s m e : round_decimal s m e <> S754_nan.
Proof.
  unfold round_decimal. destruct (0 <=? e); [apply round_binary_not_nan|].
  cbn [SFdiv].
  pose proof (SFdiv_core_binary_spec prec32 emax32
                (Zpos (Z.to_pos m)) 0 (Zpos (Z.to_pos (10 ^ (- e)))) 0) as H.
  destruct (SFdiv_core_binary prec32 emax32 _ 0 _ 0) as [[q e'] l].
  destruct H as [Hq _]; [lia | lia |].
  apply binary_round_aux_not_nan. exact Hq.
Qed.

Context {libc : Libc}.

(** A finite number never converts to a NaN, and converts to an infinity
    only with [ERANGE]. *)
Lemma finish_special nptr neg m v tiny rest :
  v <> S754_nan ->
  let c := Strtof.finish nptr neg m v tiny rest in
  is_nan (Strtof.value c) = false
  /\ (is_infinity (Strtof.value c) = true -> Strtof.erange c = true).
Proof.
  intros Hv. unfold Strtof.finish. cbn [Strtof.value Strtof.erange].
  destruct (m =? 0); cbn; split; try reflexivity; try discriminate.
  - destruct v; try reflexivity. congruence.
  - intros ->. reflexivity.
Qed.

Lemma stof_special f v :
  Strtof.stof f = inr v ->
  (is_infinity v = true -> spelled "inf" f = true)
  /\ (is_nan v = true -> spelled "nan" f = true).
Proof.
  unfold Strtof.stof, spelled, Strtof.strtof.
  destruct (Strtof.scan_sign (Strtof.skip_space (Strtof.c_str f))) as [neg s].
  cbn [snd].
  destruct (Strtof.skip_word "inf" s) as [r|].
  { cbn. intros [= <-]. split; [reflexivity | discriminate]. }
  destruct (Strtof.skip_word "nan" s) as [r|].
  { cbn. intros [= <-]. split; [discriminate | reflexivity]. }
  assert (Hfin : forall c,
            (is_nan (Strtof.value c) = false
             /\ (is_infinity (Strtof.value c) = true -> Strtof.erange c = true)) ->
            (if Strtof.erange c then inl out_of_range else inr (Strtof.value c)) = inr v ->
            (is_infinity v = true -> false = true) /\ (is_nan v = true -> false = true)).
  { intros c [Hn Hi]. destruct (Strtof.erange c) eqn:Er; [discriminate|].
    intros [= <-]. split; intros H.
    - specialize (Hi H). discriminate.
    - congruence. }
  destruct (Strtof.scan_hex (Strtof.c_str f) neg s) as [h|] eqn:Eh.
  - apply Hfin. revert Eh. unfold Strtof.scan_hex.
    destruct s as [|z [|x s']]; try discriminate.
    destruct (Ascii.eqb z "0" && Ascii.eqb (Ctype.tolower x) "x"); [|discriminate].
    destruct (Strtof.scan_mantissa _ _ _ s') as [[[m nf] r]|]; [|discriminate].
    destruct (Strtof.scan_exponent "p" r) as [ep r'].
    intros [= <-]. apply finish_special, round_binary_not_nan.
  - unfold Strtof.scan_decimal.
    destruct (Strtof.scan_mantissa _ _ _ s) as [[[m nf] r]|]; [|discriminate].
    destruct (Strtof.scan_exponent "e" r) as [ex r'].
    apply Hfin. apply finish_special, round_decimal_not_nan.
Qed.

(** A number too large for float sets [ERANGE]: [stof] throws. *)
Lemma stof_overflows f :
  overflows f = true -> Strtof.stof f = inl out_of_range.
Proof.
  unfold overflows, Strtof.stof, spelled, Strtof.strtof.
  destruct (Strtof.scan_sign (Strtof.skip_space (Strtof.c_str f))) as [neg s].
  cbn [snd].
  destruct (Strtof.skip_word "inf" s) as [r|].
  { cbn. discriminate. }
  destruct (Strtof.skip_word "nan" s) as [r|].
  { cbn. discriminate. }
  assert (Hfin : forall c,
            (is_nan (Strtof.value c) = false
             /\ (is_infinity (Strtof.value c) = true -> Strtof.erange c = true)) ->
            is_infinity (Strtof.value c) && negb false = true ->
            (if Strtof.erange c then inl out_of_range else inr (Strtof.value c))
            = (inl out_of_range : exn + spec_float)).
  { intros c [_ Hi] H. rewrite andb_true_r in H. rewrite (Hi H). reflexivity. }
  destruct (Strtof.scan_hex (Strtof.c_str f) neg s) as [h|] eqn:Eh.
  - apply Hfin. revert Eh. unfold Strtof.scan_hex.
    destruct s as [|z [|x s']]; try discriminate.
    destruct (Ascii.eqb z "0" && Ascii.eqb (Ctype.tolower x) "x"); [|discriminate].
    destruct (Strtof.scan_mantissa _ _ _ s') as [[[m nf] r]|]; [|discriminate].
    destruct (Strtof.scan_exponent "p" r) as [ep r'].
    intros [= <-]. apply finish_special, round_binary_not_nan.
  - unfold Strtof.scan_decimal.
    destruct (Strtof.scan_mantissa _ _ _ s) as [[[m nf] r]|]; [|discriminate].
    destruct (Strtof.scan_exponent "e" r) as [ex r'].
    apply Hfin. apply finish_special, round_decimal_not_nan.
Qed.

(** The conversion of a record ends at the first field that is refused. *)
Lemma convert_fields_stops pre f post e :
  Forall converts pre -> Strtof.stof f = inl e ->
  convert_fields (pre ++ f :: post) = inl e.
Proof.
  intros Hpre He. induction Hpre as [|a l [v Hv] _ IH]; cbn.
  - rewrite He. reflexivity.
  - rewrite Hv, IH. reflexivity.
Qed.

Lemma double_of_float_class v :
  is_float v = true ->
  is_infinity (double_of_float v) = is_infinity v
  /\ is_nan (double_of_float v) = is_nan v.
Proof.
  destruct v as [s|s| |s m e]; try (split; reflexivity).
  intros H. destruct (double_of_float_finite s m e H) as [k ->].
  split; reflexivity.
Qed.

Lemma convert_fields_ok fs vs :
  convert_fields fs = inr vs -> Forall converts fs /\ vs = map number fs.
Proof.
  revert vs. induction fs as [|f fs IH]; intros vs; cbn.
  - intros [= <-]. split; [constructor | reflexivity].
  - unfold number at 1. destruct (Strtof.stof f) as [|v] eqn:Ev; [discriminate|].
    destruct (convert_fields fs) as [|ws]; [discriminate|].
    intros [= <-]. destruct (IH _ eq_refl) as [Hall ->].
    split; [constructor; [exists v; exact Ev | exact Hall] | reflexivity].
Qed.

Lemma ingest_ok_iff recs :
  fst (ingest recs) = inr tt
  <-> Forall (fun r => Forall converts (fields r)) recs.
Proof.
  split.
  - induction recs as [|r rs IH]; cbn; [constructor|].
    destruct (convert_fields (fields r)) as [e|wp] eqn:Ec; [discriminate|].
    destruct (ingest rs) as [o ws]. cbn in *. intros ->.
    constructor; [exact (proj1 (convert_fields_ok _ _ Ec)) | apply IH; reflexivity].
  - intros H. rewrite (ingest_all _ H). reflexivity.
Qed.

End SpecialValues.

(** ** Further properties of the reader *)

Section ReaderExtras.
Context {libc : Libc}.
Import IEEE.

(** X2.  [readRoadmapFromCSV] returns normally exactly when [std::stof]
    converts every field of every record of the text. *)
Theorem readRoadmapFromCSV_succeeds_iff (text : string) (self : IpoptMPC) :
  fst (readRoadmapFromCSV text self) = inr tt
  <-> Forall (fun r => Forall converts (fields r)) (records text).
Proof.
  rewrite readRoadmapFromCSV_ingest. cbn [fst]. apply ingest_ok_iff.
Qed.

(** X3.  [parseRoadMapLine] throws the exception of the first field that
    [std::stof] refuses, in reading order, and leaves the object as it
    was; the fields after it are not looked at. *)
Theorem parseRoadMapLine_first_refused
  (line : string) (self : IpoptMPC) (pre post : list string) (f : string) (e : exn) :
  fields line = pre ++ f :: post ->
  Forall converts pre ->
  Strtof.stof f = inl e ->
  parseRoadMapLine line self = (inl e, self).
Proof.
  intros Hf Hpre He. rewrite parseRoadMapLine_fields, Hf.
  assert (E : convert_fields (pre ++ f :: post) = inl e).
  { clear Hf. induction Hpre as [|a l [v Hv] _ IH]; cbn.
    - rewrite He. reflexivity.
    - rewrite Hv, IH. reflexivity. }
  rewrite E. reflexivity.
Qed.

(** X4.  Reading composes at line boundaries: when the first text is empty
    or ends with a line feed, reading the two texts one after the other in
    one call is reading the first and, if that returns, reading the
    second. *)
Theorem readRoadmapFromCSV_app (t1 t2 : string) (self : IpoptMPC) :
  line_complete LF t1 = true ->
  readRoadmapFromCSV (t1 +++ t2) self
  = bind (readRoadmapFromCSV t1) (fun _ => readRoadmapFromCSV t2) self.
Proof.
  intros H. unfold readRoadmapFromCSV at 1.
  rewrite while_getline_for_each.
  change "010"%char with LF. rewrite (split_app _ _ _ H), for_each_app.
  unfold bind, readRoadmapFromCSV. rewrite while_getline_for_each.
  change "010"%char with LF.
  destruct (for_each parseRoadMapLine (split LF t1) self) as [[e|u] st']; [reflexivity|].
  rewrite while_getline_for_each. reflexivity.
Qed.

(** X5.  A line feed after the last record changes nothing: a text that is
    not empty and does not end with a line feed is read the same with one
    added. *)
Theorem readRoadmapFromCSV_trailing_newline (text : string) (self : IpoptMPC) :
  line_complete LF text = false ->
  readRoadmapFromCSV (text +++ String LF EmptyString) self
  = readRoadmapFromCSV text self.
Proof.
  intros H. unfold readRoadmapFromCSV. rewrite !while_getline_for_each.
  change "010"%char with LF. rewrite (split_trailing _ _ H). reflexivity.
Qed.

(** X6.  A comma after the last field changes nothing: a record that is
    not empty and does not end with a comma is parsed the same with one
    added. *)
Theorem parseRoadMapLine_trailing_comma (line : string) (self : IpoptMPC) :
  line_complete "," line = false ->
  parseRoadMapLine (line +++ ",") self = parseRoadMapLine line self.
Proof.
  intros H. rewrite !parseRoadMapLine_fields. unfold fields.
  rewrite (split_trailing _ _ H). reflexivity.
Qed.

(** X7.  A text written one record per line is read line by line: when no
    line contains a line feed and the last line is not empty,
    [readRoadmapFromCSV] on the lines joined by line feeds calls
    [parseRoadMapLine] on each line in turn, up to the first that
    throws. *)
Theorem readRoadmapFromCSV_text_of (ls : list string) (self : IpoptMPC) :
  Forall (fun l => has_char LF l = false) ls ->
  last ls (String LF EmptyString) <> EmptyString ->
  readRoadmapFromCSV (text_of ls) self = for_each parseRoadMapLine ls self.
Proof.
  intros Hls Hlast. unfold readRoadmapFromCSV, text_of.
  rewrite while_getline_for_each. change "010"%char with LF.
  rewrite (split_concat _ _ Hls Hlast). reflexivity.
Qed.

(** X11.  The lines [readRoadmapFromCSV] hands to [parseRoadMapLine] are
    the text cut at its line feeds: none of them contains a line feed, and
    joined by line feeds they give the text back, but for one line feed at
    its very end. *)
Theorem readRoadmapFromCSV_lines (text : string) :
  exists ls : list string,
    (forall self, readRoadmapFromCSV text self = for_each parseRoadMapLine ls self)
    /\ Forall (fun l => has_char LF l = false) ls
    /\ (text = text_of ls \/ text = text_of ls +++ String LF EmptyString).
Proof.
  exists (split LF text). split; [|split].
  - intros self. unfold readRoadmapFromCSV. rewrite while_getline_for_each.
    reflexivity.
  - apply split_no_delim.
  - pose proof (split_join LF text) as H. unfold text_of.
    destruct (line_complete LF text).
    + destruct text as [|c t].
      * left. reflexivity.
      * right. symmetry. exact H.
    + left. rewrite <- H at 1.
      generalize (String.concat (String LF EmptyString) (split LF text)).
      intros x. induction x as [|a x IHx]; cbn; congruence.
Qed.

(** X10.  A coordinate stored by [parseRoadMapLine] is an infinity only
    when its field spells [inf], and a NaN only when its field spells
    [nan].  A number too large for float is never stored as an infinity:
    [std::stof] throws [std::out_of_range] for it, and a record in which
    it is the first field refused throws [std::out_of_range] and leaves
    the object as it was. *)
Theorem parseRoadMapLine_special_values (line : string) (self : IpoptMPC) :
  (forall self',
      parseRoadMapLine line self = (inr tt, self') ->
      waypoints_ self' = waypoints_ self ++ [map number (fields line)]
      /\ forall f, In f (fields line) ->
           (is_infinity (number f) = true -> spelled "inf" f = true)
           /\ (is_nan (number f) = true -> spelled "nan" f = true))
  /\ (forall pre f post,
        fields line = pre ++ f :: post ->
        Forall converts pre ->
        overflows f = true ->
        Strtof.stof f = inl out_of_range
        /\ parseRoadMapLine line self = (inl out_of_range, self)).
Proof.
  split.
  - intros self'. rewrite parseRoadMapLine_fields.
    destruct (convert_fields (fields line)) as [e|wp] eqn:Ec; [discriminate|].
    intros [= <-]. destruct (convert_fields_ok _ _ Ec) as [Hall ->].
    split; [reflexivity|]. intros f Hin.
    rewrite Forall_forall in Hall. destruct (Hall f Hin) as [v Hv].
    unfold number. rewrite Hv.
    destruct (double_of_float_class v (stof_is_float _ _ Hv)) as [-> ->].
    exact (stof_special _ _ Hv).
  - intros pre f post Hf Hpre Ho.
    pose proof (stof_overflows _ Ho) as Hs. split; [exact Hs|].
    rewrite parseRoadMapLine_fields, Hf, (convert_fields_stops _ _ _ _ Hpre Hs).
    reflexivity.
Qed.

End ReaderExtras.

Lemma read_until_piece delim s : forall tok rest,
  read_until delim s = (tok, rest) ->
  has_char delim tok = false
  /\ (s = tok +++ String delim rest \/ (s = tok /\ rest = EmptyString)).
Proof.
  induction s as [|c s IH]; intros tok rest; cbn.
  - intros [= <- <-]. split; [reflexivity | right; split; reflexivity].
  - destruct (Ascii.eqb c delim) eqn:E.
    + intros [= <- <-]. apply Ascii.eqb_eq in E. subst.
      split; [reflexivity | left; reflexivity].
    + destruct (read_until delim s) as [tk rs].
      intros [= <- <-]. destruct (IH _ _ eq_refl) as [Hn Hs].
      split; [cbn; rewrite E; exact Hn|].
      destruct Hs as [-> | [-> ->]]; [left | right; split]; reflexivity.
Qed.

(** X8.  [std::getline] on a stream that is not at its end: the piece
    extracted holds no delimiter, and the stream was the piece, the
    delimiter and what is left, or the piece alone with nothing left. *)
Theorem getline_piece (stream : string) (delim : ascii) (tok rest : string) :
  getline stream delim = Some (tok, rest) ->
  has_char delim tok = false
  /\ (stream = tok +++ String delim rest
      \/ (stream = tok /\ rest = EmptyString)).
Proof.
  destruct stream as [|c s]; [discriminate|]. unfold getline. intros H.
  apply (read_until_piece delim (String c s)). congruence.
Qed.

(** ** The further properties at work *)

Lemma readRoadmapFromCSV_stops_witness :
  @readRoadmapFromCSV libc_strict (text_of ["0,0"; "1,a"; "2,2"]) fresh
  = (inl invalid_argument,
     set_waypoints
       (waypoints_ fresh
        ++ map (fun r => map (@number libc_strict) (fields r)) ["0,0"%string])
       fresh).
Proof.
  apply (@readRoadmapFromCSV_stops libc_strict _ fresh
           ["0,0"%string] "1,a" ["2,2"%string] invalid_argument).
  - vm_compute. reflexivity.
  - apply all_convert_check. vm_compute. reflexivity.
  - vm_compute. reflexivity.
Defined.

Lemma parseRoadMapLine_first_refused_witness :
  @parseRoadMapLine libc_strict "1,1e39,b" fresh = (inl out_of_range, fresh).
Proof.
  apply (@parseRoadMapLine_first_refused libc_strict "1,1e39,b" fresh
           ["1"%string] ["b"%string] "1e39" out_of_range).
  - vm_compute. reflexivity.
  - constructor; [|constructor]. apply convertsb_converts. vm_compute. reflexivity.
  - vm_compute. reflexivity.
Defined.

Lemma readRoadmapFromCSV_app_witness :
  @readRoadmapFromCSV libc_strict
     (String "0" (String "," (String "0" (String LF ""))) +++ "1,1") fresh
  = bind (@readRoadmapFromCSV libc_strict
            (String "0" (String "," (String "0" (String LF "")))))
         (fun _ => @readRoadmapFromCSV libc_strict "1,1") fresh.
Proof.
  apply (@readRoadmapFromCSV_app libc_strict). vm_compute. reflexivity.
Defined.

Lemma readRoadmapFromCSV_trailing_newline_witness :
  @readRoadmapFromCSV libc_strict ("0,0" +++ String LF EmptyString) fresh
  = @readRoadmapFromCSV libc_strict "0,0" fresh.
Proof.
  apply (@readRoadmapFromCSV_trailing_newline libc_strict). vm_compute. reflexivity.
Defined.

Lemma parseRoadMapLine_trailing_comma_witness :
  @parseRoadMapLine libc_strict ("1,0.5" +++ ",") fresh
  = @parseRoadMapLine libc_strict "1,0.5" fresh.
Proof.
  apply (@parseRoadMapLine_trailing_comma libc_strict). vm_compute. reflexivity.
Defined.

Lemma readRoadmapFromCSV_text_of_witness :
  @readRoadmapFromCSV libc_strict (text_of ["0,0"; ""; "1,0"]) fresh
  = for_each (@parseRoadMapLine libc_strict) ["0,0"; ""; "1,0"]%string fresh.
Proof.
  apply (@readRoadmapFromCSV_text_of libc_strict).
  - repeat constructor.
  - vm_compute. discriminate.
Defined.

Lemma getline_piece_witness :
  has_char "," "1" = false
  /\ ("1,0.5"%string = "1" +++ String "," "0.5"
      \/ ("1,0.5"%string = "1"%string /\ "0.5"%string = EmptyString)).
Proof.
  apply (getline_piece "1,0.5" "," "1" "0.5"). vm_compute. reflexivity.
Defined.

Lemma parseRoadMapLine_special_values_witness :
  (waypoints_ (set_waypoints [[S754_infinity true; d_one]] fresh)
   = waypoints_ fresh ++ [map (@number libc_strict) (fields "-inf,1")]
   /\ forall f, In f (fields "-inf,1") ->
        (IEEE.is_infinity (@number libc_strict f) = true -> spelled "inf" f = true)
        /\ (is_nan (@number libc_strict f) = true -> spelled "nan" f = true))
  /\ (@Strtof.stof libc_strict "1e39" = inl out_of_range
      /\ @parseRoadMapLine libc_strict "1,1e39,2" fresh = (inl out_of_range, fresh)).
Proof.
  split.
  - apply (proj1 (@parseRoadMapLine_special_values libc_strict "-inf,1" fresh)).
    vm_compute. reflexivity.
  - apply (proj2 (@parseRoadMapLine_special_values libc_strict "1,1e39,2" fresh)
             ["1"%string] "1e39" ["2"%string]).
    + vm_compute. reflexivity.
    + constructor; [|constructor]. apply convertsb_converts. vm_compute. reflexivity.
    + vm_compute. reflexivity.
Defined.
